(** * Do Meows: the task list screen and its feedback controller

    Shallow embedding of the to-do screen of the "Do Meows" app
    (src/03-your-project-explained.md): the task record, the React state
    of the screen, the [showFeedback] controller with its timeout held in
    a ref, and the three handlers [handleAddTask], [handleToggleComplete]
    and [handleDelete].

    The JavaScript runtime's timers ([setTimeout], [clearTimeout]) are
    modelled as a list of pending timers with a millisecond clock; every
    timer of this screen runs the same callback, so a timer is a handle
    and a due time.  React's [setState] calls are applied in place. *)

From Stdlib Require Import String Ascii List Bool Arith ZArith NArith Lia.
Import ListNotations.
Open Scope string_scope.
Open Scope list_scope.

(** ** Data model *)

(** A JavaScript string that [trim] works on (the input field, a task's
    text, the edit field), as its sequence of UTF-16 code units; ids and
    theme names, which are only compared, stay Rocq strings. *)
Definition jsstring : Type := list N.

(** A JavaScript string literal written in ASCII. *)
Definition js (s : string) : jsstring := map N_of_ascii (list_ascii_of_string s).

(** [export type TaskType = { id: string; text: string; completed: boolean }] *)
Record TaskType := mkTask {
  id : string;
  text : jsstring;
  completed : bool
}.

(** [type FeedbackType = 'completed' | 'deleted' | 'added' | 'uncompleted'] *)
Inductive FeedbackType := completed_fb | deleted_fb | added_fb | uncompleted_fb.

Definition FeedbackType_eqb (a b : FeedbackType) : bool :=
  match a, b with
  | completed_fb, completed_fb | deleted_fb, deleted_fb
  | added_fb, added_fb | uncompleted_fb, uncompleted_fb => true
  | _, _ => false
  end.

(** A pending [setTimeout]: its handle and the clock value it fires at. *)
Record Timer := mkTimer {
  handle : nat;
  due : nat
}.

(** The screen's state: the four [useState] cells, the ref
    [feedbackTimeoutRef], and the runtime: the timer queue, the clock,
    the next timer handle, the handles of the timers that have fired so
    far (in order) and the ids [nanoid] has handed out so far. *)
Record St := mkSt {
  tasks : list TaskType;
  inputText : jsstring;
  feedbackType : option FeedbackType;
  feedbackImageError : bool;
  feedbackTimeoutRef : option nat;
  pending : list Timer;
  clock : nat;
  next_handle : nat;
  fired : list nat;
  issued : list string
}.

(** [useState([])], [useState('')], [useState(null)], [useState(false)],
    [useRef(null)]; the runtime starts at time 0 with no timers. *)
Definition init : St := mkSt [] [] None false None [] 0 1 [] [].

(** [const FEEDBACK_DURATION_MS = 3500;] *)
Definition FEEDBACK_DURATION_MS : nat := 3500.

(** ** String.prototype.trim *)

(** The code units [String.prototype.trim] removes at both ends: the
    ECMAScript WhiteSpace (TAB, VT, FF, ZWNBSP U+FEFF and the Unicode
    space separators U+0020, U+00A0, U+1680, U+2000 to U+200A, U+202F,
    U+205F, U+3000) and LineTerminator (LF, CR, U+2028, U+2029) code
    points, each of which is a single UTF-16 code unit. *)
Definition is_js_space (c : N) : bool :=
  ((N.leb 9 c && N.leb c 13) || N.eqb c 32 || N.eqb c 160 || N.eqb c 5760
   || (N.leb 8192 c && N.leb c 8202) || N.eqb c 8232 || N.eqb c 8233
   || N.eqb c 8239 || N.eqb c 8287 || N.eqb c 12288 || N.eqb c 65279)%bool.

Fixpoint drop_spaces (l : jsstring) : jsstring :=
  match l with
  | [] => []
  | c :: r => if is_js_space c then drop_spaces r else l
  end.

(** [s.trim()] *)
Definition trim (s : jsstring) : jsstring := rev (drop_spaces (rev (drop_spaces s))).

(** [!s]: whether a string is the falsy [''] *)
Definition js_empty (s : jsstring) : bool :=
  match s with
  | [] => true
  | _ :: _ => false
  end.

(** ** Timers *)

(** [clearTimeout(h)]: the timer with handle [h] is taken off the queue;
    a handle that already fired or was cleared is ignored. *)
Definition clearTimeout (h : nat) (s : St) : St :=
  {| tasks := tasks s; inputText := inputText s;
     feedbackType := feedbackType s;
     feedbackImageError := feedbackImageError s;
     feedbackTimeoutRef := feedbackTimeoutRef s;
     pending := filter (fun t => negb (Nat.eqb (handle t) h)) (pending s);
     clock := clock s; next_handle := next_handle s;
     fired := fired s; issued := issued s |}.

(** The callback of the feedback timeout:
    [() => { setFeedbackType(null); setFeedbackImageError(false); }].
    Running timer [h] takes it off the queue and logs it as fired. *)
Definition fire (h : nat) (s : St) : St :=
  {| tasks := tasks s; inputText := inputText s;
     feedbackType := None;
     feedbackImageError := false;
     feedbackTimeoutRef := feedbackTimeoutRef s;
     pending := filter (fun t => negb (Nat.eqb (handle t) h)) (pending s);
     clock := clock s; next_handle := next_handle s;
     fired := fired s ++ [h]; issued := issued s |}.

(** Run, in queue order, every timer of [ts] that is due. *)
Fixpoint run_due (ts : list Timer) (s : St) : St :=
  match ts with
  | [] => s
  | t :: r =>
      if Nat.leb (due t) (clock s) then run_due r (fire (handle t) s) else run_due r s
  end.

(** One millisecond passes; the timers due by then run. *)
Definition tick (s : St) : St :=
  let s1 := {| tasks := tasks s; inputText := inputText s;
               feedbackType := feedbackType s;
               feedbackImageError := feedbackImageError s;
               feedbackTimeoutRef := feedbackTimeoutRef s;
               pending := pending s;
               clock := S (clock s); next_handle := next_handle s;
               fired := fired s; issued := issued s |} in
  run_due (pending s1) s1.

Fixpoint advance (n : nat) (s : St) : St :=
  match n with
  | 0 => s
  | S k => advance k (tick s)
  end.

(** ** The feedback controller *)

(** [showFeedback(type)]: clear the pending timeout held in the ref, reset
    the image error flag, show [type], and store the handle of a fresh
    [setTimeout(..., FEEDBACK_DURATION_MS)] in the ref. *)
Definition showFeedback (type : FeedbackType) (s : St) : St :=
  let s1 := match feedbackTimeoutRef s with
            | Some h => clearTimeout h s
            | None => s
            end in
  let h := next_handle s1 in
  {| tasks := tasks s1; inputText := inputText s1;
     feedbackType := Some type;
     feedbackImageError := false;
     feedbackTimeoutRef := Some h;
     pending := pending s1 ++ [mkTimer h (clock s1 + FEEDBACK_DURATION_MS)];
     clock := clock s1; next_handle := S h;
     fired := fired s1; issued := issued s1 |}.

(** Modelled from the spec: the render of the feedback GIF, whose load
    failure "is set true externally" through [setFeedbackImageError(true)];
    the excerpt in src/ elides the [Image] element's error handler. *)
Definition onFeedbackImageError (s : St) : St :=
  {| tasks := tasks s; inputText := inputText s;
     feedbackType := feedbackType s;
     feedbackImageError := true;
     feedbackTimeoutRef := feedbackTimeoutRef s;
     pending := pending s;
     clock := clock s; next_handle := next_handle s;
     fired := fired s; issued := issued s |}.

(** ** The task handlers *)

Definition with_tasks (l : list TaskType) (s : St) : St :=
  {| tasks := l; inputText := inputText s;
     feedbackType := feedbackType s;
     feedbackImageError := feedbackImageError s;
     feedbackTimeoutRef := feedbackTimeoutRef s;
     pending := pending s;
     clock := clock s; next_handle := next_handle s;
     fired := fired s; issued := issued s |}.

(** [onChangeText={setInputText}] *)
Definition setInputText (v : jsstring) (s : St) : St :=
  {| tasks := tasks s; inputText := v;
     feedbackType := feedbackType s;
     feedbackImageError := feedbackImageError s;
     feedbackTimeoutRef := feedbackTimeoutRef s;
     pending := pending s;
     clock := clock s; next_handle := next_handle s;
     fired := fired s; issued := issued s |}.

Section Handlers.

(** [nanoid()] from [nanoid/non-secure], a library outside this
    repository: given the ids it has handed out so far, the next one. *)
Variable nanoid : list string -> string.

(** [nanoid()] as a state step: the id and the state recording it. *)
Definition gen_id (s : St) : string * St :=
  let i := nanoid (issued s) in
  (i, {| tasks := tasks s; inputText := inputText s;
         feedbackType := feedbackType s;
         feedbackImageError := feedbackImageError s;
         feedbackTimeoutRef := feedbackTimeoutRef s;
         pending := pending s;
         clock := clock s; next_handle := next_handle s;
         fired := fired s; issued := issued s ++ [i] |}).

(** [handleAddTask]:
    [if (!inputText.trim()) return;
     setTasks(prev => [...prev, { id: nanoid(), text: inputText.trim(), completed: false }]);
     setInputText(''); showFeedback('added');] *)
Definition handleAddTask (s : St) : St :=
  if js_empty (trim (inputText s)) then s
  else
    let '(i, s1) := gen_id s in
    let s2 := with_tasks (tasks s1 ++ [mkTask i (trim (inputText s)) false]) s1 in
    showFeedback added_fb (setInputText [] s2).

End Handlers.

(** [prev.map(t => t.id === id ? { ...t, completed: !t.completed } : t)] *)
Definition toggle_map (x : string) (l : list TaskType) : list TaskType :=
  map (fun t => if String.eqb (id t) x
                then mkTask (id t) (text t) (negb (completed t)) else t) l.

(** [next.find(t => t.id === id)] *)
Definition find_task (x : string) (l : list TaskType) : option TaskType :=
  find (fun t => String.eqb (id t) x) l.

(** [handleToggleComplete(id)]: map, find, then
    [if (task?.completed) showFeedback('completed'); else showFeedback('uncompleted');]
    ([task?.completed] is [undefined], hence falsy, when no task matches). *)
Definition handleToggleComplete (x : string) (s : St) : St :=
  let next := toggle_map x (tasks s) in
  let s1 := with_tasks next s in
  match find_task x next with
  | Some t => if completed t then showFeedback completed_fb s1
              else showFeedback uncompleted_fb s1
  | None => showFeedback uncompleted_fb s1
  end.

(** [handleDelete(id)]: [setTasks(prev => prev.filter(t => t.id !== id)); showFeedback('deleted');] *)
Definition handleDelete (x : string) (s : St) : St :=
  showFeedback deleted_fb
    (with_tasks (filter (fun t => negb (String.eqb (id t) x)) (tasks s)) s).

(** ** Reachable states

    The screen starts in [init]; the user edits the input, presses Add,
    toggles or deletes a listed task, time passes, and the GIF may fail
    to load. *)
Inductive reachable (nanoid : list string -> string) : St -> Prop :=
| reach_init : reachable nanoid init
| reach_input v s : reachable nanoid s -> reachable nanoid (setInputText v s)
| reach_add s : reachable nanoid s -> reachable nanoid (handleAddTask nanoid s)
| reach_toggle x s : reachable nanoid s -> reachable nanoid (handleToggleComplete x s)
| reach_delete x s : reachable nanoid s -> reachable nanoid (handleDelete x s)
| reach_tick s : reachable nanoid s -> reachable nanoid (tick s)
| reach_img_error s : reachable nanoid s -> reachable nanoid (onFeedbackImageError s).

(** The clock set to [c], nothing else changed. *)
Definition set_clock (c : nat) (s : St) : St :=
  {| tasks := tasks s; inputText := inputText s;
     feedbackType := feedbackType s;
     feedbackImageError := feedbackImageError s;
     feedbackTimeoutRef := feedbackTimeoutRef s;
     pending := pending s;
     clock := c; next_handle := next_handle s;
     fired := fired s; issued := issued s |}.

(** At most one feedback timeout is queued, it is the one the ref holds,
    and it is still in the future. *)
Definition timer_inv (s : St) : Prop :=
  match pending s with
  | [] => True
  | [t] => feedbackTimeoutRef s = Some (handle t) /\ clock s < due t
  | _ => False
  end.

(** Every task id was handed out by [nanoid], and no two tasks share one. *)
Definition ids_inv (s : St) : Prop :=
  NoDup (map id (tasks s)) /\ forall t, In t (tasks s) -> In (id t) (issued s).

(** ** Lemmas on the runtime *)

Lemma set_clock_same s : set_clock (clock s) s = s.
Proof. destruct s; reflexivity. Qed.

Lemma set_clock_set_clock a b s : set_clock a (set_clock b s) = set_clock a s.
Proof. destruct s; reflexivity. Qed.

Lemma fire_set_clock h c s : fire h (set_clock c s) = set_clock c (fire h s).
Proof. destruct s; reflexivity. Qed.

Lemma tick_empty s : pending s = [] -> tick s = set_clock (S (clock s)) s.
Proof. destruct s; simpl; intros ->; reflexivity. Qed.

Lemma tick_one s t :
  pending s = [t] ->
  tick s = if Nat.leb (due t) (S (clock s))
           then fire (handle t) (set_clock (S (clock s)) s)
           else set_clock (S (clock s)) s.
Proof. destruct s; simpl; intros ->; reflexivity. Qed.

Lemma pending_fire_one s t :
  pending s = [t] -> pending (fire (handle t) s) = [].
Proof. destruct s; simpl; intros ->; simpl; rewrite Nat.eqb_refl; reflexivity. Qed.

Lemma advance_empty n s :
  pending s = [] -> advance n s = set_clock (clock s + n) s.
Proof.
  revert s; induction n as [|n IH]; intros s Hp; simpl.
  - rewrite Nat.add_0_r, set_clock_same; reflexivity.
  - rewrite (tick_empty s Hp), IH by (destruct s; exact Hp).
    rewrite set_clock_set_clock; simpl; f_equal; lia.
Qed.

(** With one timer queued and not yet due, [n] milliseconds later the
    state is the same with the clock moved, and the timer has run iff
    its due time was reached. *)
Lemma advance_one n s t :
  pending s = [t] -> clock s < due t ->
  advance n s = if Nat.ltb (clock s + n) (due t)
                then set_clock (clock s + n) s
                else set_clock (clock s + n) (fire (handle t) s).
Proof.
  revert s; induction n as [|n IH]; intros s Hp Hlt; simpl.
  - rewrite Nat.add_0_r, set_clock_same.
    replace (Nat.ltb (clock s) (due t)) with true
      by (symmetry; apply Nat.ltb_lt; exact Hlt).
    reflexivity.
  - rewrite (tick_one s t Hp).
    destruct (Nat.leb (due t) (S (clock s))) eqn:Hd.
    + apply Nat.leb_le in Hd.
      assert (Hdue : due t = S (clock s)) by lia.
      rewrite advance_empty
        by (rewrite fire_set_clock; destruct s; simpl in *; subst;
            simpl; rewrite Nat.eqb_refl; reflexivity).
      replace (Nat.ltb (clock s + S n) (due t)) with false
        by (symmetry; apply Nat.ltb_ge; lia).
      rewrite fire_set_clock, set_clock_set_clock.
      destruct s; simpl; f_equal; lia.
    + apply Nat.leb_gt in Hd.
      rewrite IH by (destruct s; simpl in *; assumption).
      replace (clock (set_clock (S (clock s)) s) + n) with (clock s + S n)
        by (simpl; lia).
      rewrite fire_set_clock, !set_clock_set_clock. reflexivity.
Qed.

Lemma showFeedback_pending k s :
  timer_inv s ->
  pending (showFeedback k s)
  = [mkTimer (next_handle s) (clock s + FEEDBACK_DURATION_MS)].
Proof.
  unfold timer_inv, showFeedback.
  destruct (pending s) as [|t [|t' r]] eqn:Hp; intros Hi.
  - destruct (feedbackTimeoutRef s); simpl; rewrite ?Hp; reflexivity.
  - destruct Hi as [Href _]; rewrite Href; simpl; rewrite Hp; simpl.
    rewrite Nat.eqb_refl; reflexivity.
  - contradiction.
Qed.

Lemma showFeedback_timer_inv k s : timer_inv s -> timer_inv (showFeedback k s).
Proof.
  intros Hi; unfold timer_inv at 1; rewrite (showFeedback_pending k s Hi).
  unfold showFeedback; destruct (feedbackTimeoutRef s); simpl;
    unfold FEEDBACK_DURATION_MS; split; auto; lia.
Qed.

Lemma tick_timer_inv s : timer_inv s -> timer_inv (tick s).
Proof.
  unfold timer_inv at 1; destruct (pending s) as [|t [|t' r]] eqn:Hp; intros Hi.
  - rewrite (tick_empty s Hp); unfold timer_inv; simpl; rewrite Hp; exact I.
  - destruct Hi as [Href Hlt]; rewrite (tick_one s t Hp).
    destruct (Nat.leb (due t) (S (clock s))) eqn:Hd.
    + unfold timer_inv; destruct s; simpl in *; subst; simpl.
      rewrite Nat.eqb_refl; exact I.
    + apply Nat.leb_gt in Hd; unfold timer_inv; simpl; rewrite Hp; auto.
  - contradiction.
Qed.

Lemma reachable_timer_inv nanoid s : reachable nanoid s -> timer_inv s.
Proof.
  induction 1 as [ | v s _ IH | s _ IH | x s _ IH | x s _ IH | s _ IH | s _ IH].
  - exact I.
  - exact IH.
  - unfold handleAddTask; destruct (js_empty _); [exact IH|].
    apply showFeedback_timer_inv; exact IH.
  - unfold handleToggleComplete.
    destruct (find_task _ _) as [t|]; [destruct (completed t)|];
      apply showFeedback_timer_inv; exact IH.
  - apply showFeedback_timer_inv; exact IH.
  - apply tick_timer_inv; exact IH.
  - exact IH.
Qed.

(** ** Lemmas on the task list *)

Lemma drop_spaces_blank l :
  (forall c, In c l -> is_js_space c = true) -> drop_spaces l = [].
Proof.
  induction l as [|c r IH]; intros H; simpl; [reflexivity|].
  rewrite (H c (or_introl eq_refl)); apply IH; intros c' Hc'; apply H; right; exact Hc'.
Qed.

Lemma js_empty_true l : js_empty l = true -> l = [].
Proof. destruct l; [reflexivity | discriminate]. Qed.

Lemma trim_blank s :
  (forall c, In c s -> is_js_space c = true) -> trim s = [].
Proof. intros H; unfold trim; rewrite (drop_spaces_blank _ H); reflexivity. Qed.

Lemma toggle_map_ids x l : map id (toggle_map x l) = map id l.
Proof.
  induction l as [|t r IH]; simpl; [reflexivity|].
  destruct (String.eqb (id t) x); simpl; rewrite IH; reflexivity.
Qed.

Lemma toggle_map_involutive x l : toggle_map x (toggle_map x l) = l.
Proof.
  induction l as [|t r IH]; simpl; [reflexivity|].
  destruct (String.eqb (id t) x) eqn:E; simpl; rewrite ?E, IH; [|reflexivity].
  rewrite negb_involutive; destruct t; reflexivity.
Qed.

Lemma toggle_map_absent x l :
  (forall u, In u l -> id u <> x) -> toggle_map x l = l.
Proof.
  induction l as [|t r IH]; intros H; simpl; [reflexivity|].
  destruct (String.eqb (id t) x) eqn:E.
  - apply String.eqb_eq in E; exfalso; exact (H t (or_introl eq_refl) E).
  - rewrite IH; [reflexivity|]; intros u Hu; apply H; right; exact Hu.
Qed.

Lemma find_toggle_map x l :
  find_task x (toggle_map x l)
  = option_map (fun t => mkTask (id t) (text t) (negb (completed t))) (find_task x l).
Proof.
  unfold find_task; induction l as [|t r IH]; simpl; [reflexivity|].
  destruct (String.eqb (id t) x) eqn:E; simpl; rewrite ?E; [reflexivity|exact IH].
Qed.

Lemma find_task_absent x l :
  (forall u, In u l -> id u <> x) -> find_task x l = None.
Proof.
  unfold find_task; induction l as [|t r IH]; intros H; simpl; [reflexivity|].
  destruct (String.eqb (id t) x) eqn:E.
  - apply String.eqb_eq in E; exfalso; exact (H t (or_introl eq_refl) E).
  - apply IH; intros u Hu; apply H; right; exact Hu.
Qed.

Lemma NoDup_snoc {A} (l : list A) a : NoDup l -> ~ In a l -> NoDup (l ++ [a]).
Proof.
  intros Hl Ha; apply NoDup_app; [exact Hl | constructor; [intros []|constructor] |].
  intros b Hb [<-|[]]; exact (Ha Hb).
Qed.

Lemma existsb_absent x l :
  ~ In x (map id l) -> existsb (fun t => String.eqb (id t) x) l = false.
Proof.
  induction l as [|t r IH]; intros H; simpl; [reflexivity|].
  destruct (String.eqb (id t) x) eqn:E.
  - apply String.eqb_eq in E; exfalso; apply H; left; exact E.
  - apply IH; intros Hin; apply H; right; exact Hin.
Qed.

(** With distinct ids, the filter of [handleDelete] drops one task if
    one has the id, none otherwise. *)
Lemma filter_delete_length x l :
  NoDup (map id l) ->
  length l = length (filter (fun t => negb (String.eqb (id t) x)) l)
             + (if existsb (fun t => String.eqb (id t) x) l then 1 else 0).
Proof.
  induction l as [|t r IH]; intros Hnd; simpl; [reflexivity|].
  inversion Hnd as [|? ? Hnotin Hnd']; subst.
  destruct (String.eqb (id t) x) eqn:E; simpl.
  - apply String.eqb_eq in E; subst x.
    rewrite (IH Hnd'), (existsb_absent _ _ Hnotin); lia.
  - rewrite (IH Hnd'); reflexivity.
Qed.

(** The toggle of a listed task, when ids are distinct, rewrites that
    task alone, in place. *)
Lemma toggle_map_split x pre t post :
  NoDup (map id (pre ++ t :: post)) -> id t = x ->
  toggle_map x (pre ++ t :: post)
  = pre ++ mkTask (id t) (text t) (negb (completed t)) :: post.
Proof.
  intros Hnd Hid; rewrite map_app in Hnd; simpl in Hnd.
  apply NoDup_remove_2 in Hnd as Hnot.
  unfold toggle_map; rewrite map_app; simpl.
  rewrite Hid, String.eqb_refl.
  fold (toggle_map x pre); fold (toggle_map x post).
  rewrite !toggle_map_absent; [reflexivity| |];
    intros u Hu Hux; apply Hnot; subst x; rewrite <- Hux; apply in_or_app;
    [right | left]; apply in_map; exact Hu.
Qed.

Lemma showFeedback_tasks k s : tasks (showFeedback k s) = tasks s.
Proof. unfold showFeedback; destruct (feedbackTimeoutRef s); reflexivity. Qed.

Lemma showFeedback_issued k s : issued (showFeedback k s) = issued s.
Proof. unfold showFeedback; destruct (feedbackTimeoutRef s); reflexivity. Qed.

Lemma run_due_tasks_issued ts s :
  tasks (run_due ts s) = tasks s /\ issued (run_due ts s) = issued s.
Proof.
  revert s; induction ts as [|t r IH]; intros s; simpl; [split; reflexivity|].
  destruct (Nat.leb (due t) (clock s)); [|apply IH].
  destruct (IH (fire (handle t) s)) as [-> ->]; split; reflexivity.
Qed.

Lemma tick_tasks_issued s : tasks (tick s) = tasks s /\ issued (tick s) = issued s.
Proof. unfold tick; exact (run_due_tasks_issued _ _). Qed.

Lemma NoDup_map_id_filter f l :
  NoDup (map id l) -> NoDup (map id (filter f l)).
Proof.
  induction l as [|t r IH]; intros Hnd; simpl; [constructor|].
  inversion Hnd as [|? ? Hnotin Hnd']; subst.
  destruct (f t); simpl; [|apply IH; exact Hnd'].
  constructor; [|apply IH; exact Hnd'].
  intros Hin; apply Hnotin; apply in_map_iff in Hin as [u [Hu Hin]].
  apply filter_In in Hin as [Hin _]; rewrite <- Hu; apply in_map; exact Hin.
Qed.

Section Fresh.

Variable nanoid : list string -> string.

(** [nanoid()] never repeats an id it handed out before. *)
Hypothesis nanoid_fresh : forall used, ~ In (nanoid used) used.

Lemma reachable_ids_inv s : reachable nanoid s -> ids_inv s.
Proof.
  induction 1 as [ | v s _ IH | s _ IH | x s _ IH | x s _ IH | s _ IH | s _ IH];
    unfold ids_inv in *.
  - split; [constructor | intros t []].
  - exact IH.
  - destruct IH as [Hnd Hiss].
    unfold handleAddTask; destruct (js_empty _); [split; assumption|].
    unfold gen_id; cbv beta iota zeta.
    rewrite showFeedback_tasks, showFeedback_issued; simpl; split.
    + rewrite map_app; simpl; apply NoDup_snoc; [exact Hnd|].
      intros Hin; apply in_map_iff in Hin as [u [Hu Hin]].
      apply (nanoid_fresh (issued s)); rewrite <- Hu; apply Hiss; exact Hin.
    + intros t Ht; apply in_app_or in Ht as [Ht|[<-|[]]]; apply in_or_app.
      * left; apply Hiss; exact Ht.
      * right; left; reflexivity.
  - destruct IH as [Hnd Hiss].
    assert (Hg : forall k, NoDup (map id (tasks (showFeedback k (with_tasks (toggle_map x (tasks s)) s))))
              /\ forall t, In t (tasks (showFeedback k (with_tasks (toggle_map x (tasks s)) s)))
                 -> In (id t) (issued (showFeedback k (with_tasks (toggle_map x (tasks s)) s)))).
    { intros k; rewrite showFeedback_tasks, showFeedback_issued; simpl; split.
      - rewrite toggle_map_ids; exact Hnd.
      - intros t Ht; unfold toggle_map in Ht; apply in_map_iff in Ht as [u [Hu Hin]].
        subst t; destruct (String.eqb (id u) x); simpl; apply Hiss; exact Hin. }
    unfold handleToggleComplete.
    destruct (find_task _ _) as [t|]; [destruct (completed t)|]; apply Hg.
  - destruct IH as [Hnd Hiss].
    unfold handleDelete; rewrite showFeedback_tasks, showFeedback_issued; simpl; split.
    + apply NoDup_map_id_filter; exact Hnd.
    + intros t Ht; apply filter_In in Ht as [Ht _]; apply Hiss; exact Ht.
  - destruct (tick_tasks_issued s) as [-> ->]; exact IH.
  - exact IH.
Qed.

End Fresh.

(** A generator for concrete runs: an id longer than every id handed out
    so far. *)
Fixpoint rep_n (n : nat) : string :=
  match n with
  | 0 => ""
  | S k => String "n" (rep_n k)
  end.

Definition demo_nanoid (used : list string) : string :=
  rep_n (S (list_max (map String.length used))).

Lemma length_rep_n n : String.length (rep_n n) = n.
Proof. induction n as [|n IH]; simpl; [reflexivity|rewrite IH; reflexivity]. Qed.

Lemma demo_nanoid_fresh : forall used, ~ In (demo_nanoid used) used.
Proof.
  intros used Hin.
  assert (Hle : String.length (demo_nanoid used) <= list_max (map String.length used)).
  { pose proof (proj1 (list_max_le (map String.length used) _) (Nat.le_refl _)) as HF.
    rewrite Forall_forall in HF; apply HF, in_map; exact Hin. }
  unfold demo_nanoid in Hle; rewrite length_rep_n in Hle; lia.
Qed.

Lemma tasks_showFeedback_with_tasks k l s : tasks (showFeedback k (with_tasks l s)) = l.
Proof. rewrite showFeedback_tasks; reflexivity. Qed.

Lemma handleToggleComplete_eq x s :
  handleToggleComplete x s
  = showFeedback
      (match find_task x (toggle_map x (tasks s)) with
       | Some t => if completed t then completed_fb else uncompleted_fb
       | None => uncompleted_fb
       end)
      (with_tasks (toggle_map x (tasks s)) s).
Proof.
  unfold handleToggleComplete.
  destruct (find_task x (toggle_map x (tasks s))) as [t|]; [destruct (completed t)|];
    reflexivity.
Qed.

Lemma feedbackType_showFeedback k s : feedbackType (showFeedback k s) = Some k.
Proof. unfold showFeedback; destruct (feedbackTimeoutRef s); reflexivity. Qed.

Lemma with_tasks_same s : with_tasks (tasks s) s = s.
Proof. destruct s; reflexivity. Qed.

(** A run of the screen: "wash dishes" is added, ticked off and deleted. *)
Example wash_dishes_run :
  let s1 := handleAddTask demo_nanoid (setInputText (js "wash dishes") init) in
  let s2 := handleToggleComplete "n" s1 in
  let s3 := handleDelete "n" s2 in
  tasks s1 = [mkTask "n" (js "wash dishes") false] /\ feedbackType s1 = Some added_fb /\
  tasks s2 = [mkTask "n" (js "wash dishes") true] /\ feedbackType s2 = Some completed_fb /\
  tasks s3 = [] /\ feedbackType s3 = Some deleted_fb.
Proof. vm_compute; repeat split. Qed.

(** ** Claims on the task handlers *)

(** C2 (as amended): when no task has the id, [handleToggleComplete]
    leaves the task list as it is, raises nothing, and still shows the
    'uncompleted' feedback: it is exactly [showFeedback('uncompleted')]. *)
Theorem toggle_missing_id_shows_uncompleted x s :
  ~ In x (map id (tasks s)) ->
  handleToggleComplete x s = showFeedback uncompleted_fb s /\
  tasks (handleToggleComplete x s) = tasks s.
Proof.
  intros Hx.
  assert (Hab : forall u, In u (tasks s) -> id u <> x)
    by (intros u Hu Hux; apply Hx; rewrite <- Hux; apply in_map; exact Hu).
  rewrite handleToggleComplete_eq, (toggle_map_absent x _ Hab),
    (find_task_absent x _ Hab), with_tasks_same.
  split; [reflexivity | apply showFeedback_tasks].
Qed.

Lemma toggle_missing_id_shows_uncompleted_witness :
  let s := advance FEEDBACK_DURATION_MS
             (handleAddTask demo_nanoid (setInputText (js "wash dishes") init)) in
  ~ In "ghost" (map id (tasks s)) /\
  handleToggleComplete "ghost" s = showFeedback uncompleted_fb s /\
  tasks (handleToggleComplete "ghost" s) = tasks s.
Proof.
  intros s.
  assert (H : ~ In "ghost" (map id (tasks s)))
    by (vm_compute; intros [H|[]]; discriminate H).
  split; [exact H | apply (toggle_missing_id_shows_uncompleted "ghost" s H)].
Defined.

(** C2 fails: after the 'added' feedback of "wash dishes" has expired,
    toggling an id no task has shows the 'uncompleted' feedback. *)
Lemma toggle_missing_id_counterexample :
  let s := advance FEEDBACK_DURATION_MS
             (handleAddTask demo_nanoid (setInputText (js "wash dishes") init)) in
  ~ In "ghost" (map id (tasks s)) /\
  feedbackType s = None /\
  feedbackType (handleToggleComplete "ghost" s) = Some uncompleted_fb.
Proof. vm_compute; split; [intros [H|[]]; discriminate H | split; reflexivity]. Qed.

(** C4: when the input is empty or only whitespace, [handleAddTask]
    returns early: the whole state, task list and feedback included, is
    left as it was. *)
Theorem add_blank_is_noop nanoid s :
  (forall c, In c (inputText s) -> is_js_space c = true) ->
  handleAddTask nanoid s = s.
Proof. intros H; unfold handleAddTask; rewrite (trim_blank _ H); reflexivity. Qed.

(** Space, no-break space, tab, ideographic space and byte order mark. *)
Lemma add_blank_is_noop_witness :
  handleAddTask demo_nanoid (setInputText [32; 160; 9; 12288; 65279]%N init)
  = setInputText [32; 160; 9; 12288; 65279]%N init.
Proof.
  apply add_blank_is_noop; intros c Hc; simpl in Hc.
  repeat (destruct Hc as [<-|Hc]; [reflexivity|]); destruct Hc.
Defined.

(** C10: [handleAddTask] empties the input exactly when it adds a task,
    and leaves it as it was otherwise. *)
Theorem add_clears_input nanoid s :
  inputText (handleAddTask nanoid s)
  = if js_empty (trim (inputText s)) then inputText s else [].
Proof.
  unfold handleAddTask; destruct (js_empty (trim (inputText s))); [reflexivity|].
  unfold gen_id; cbv beta iota zeta; unfold showFeedback.
  destruct (feedbackTimeoutRef _); reflexivity.
Qed.

(** C5: toggling an existing task twice gives back the task list, and
    the two calls show 'completed' then 'uncompleted' when the task was
    open, 'uncompleted' then 'completed' when it was done; one call
    shows 'completed' exactly when the flag became true. *)
Theorem toggle_twice x s t :
  find_task x (tasks s) = Some t ->
  let s1 := handleToggleComplete x s in
  let s2 := handleToggleComplete x s1 in
  tasks s2 = tasks s /\
  feedbackType s1 = Some (if completed t then uncompleted_fb else completed_fb) /\
  feedbackType s2 = Some (if completed t then completed_fb else uncompleted_fb) /\
  (exists t1, find_task x (tasks s1) = Some t1 /\
              completed t1 = negb (completed t) /\
              feedbackType s1 = Some (if completed t1 then completed_fb else uncompleted_fb)).
Proof.
  intros Hf s1 s2.
  assert (Ht1 : tasks s1 = toggle_map x (tasks s))
    by (unfold s1; rewrite handleToggleComplete_eq; apply tasks_showFeedback_with_tasks).
  assert (Hf1 : find_task x (tasks s1)
                = Some (mkTask (id t) (text t) (negb (completed t))))
    by (rewrite Ht1, find_toggle_map, Hf; reflexivity).
  assert (Hfb1 : feedbackType s1
                 = Some (if completed t then uncompleted_fb else completed_fb)).
  { unfold s1; rewrite handleToggleComplete_eq, feedbackType_showFeedback.
    rewrite find_toggle_map, Hf; simpl; destruct (completed t); reflexivity. }
  split; [|split; [exact Hfb1|split]].
  - unfold s2; rewrite handleToggleComplete_eq, tasks_showFeedback_with_tasks, Ht1.
    apply toggle_map_involutive.
  - unfold s2; rewrite handleToggleComplete_eq, feedbackType_showFeedback.
    rewrite find_toggle_map, Hf1; simpl; destruct (completed t); reflexivity.
  - exists (mkTask (id t) (text t) (negb (completed t))); split; [exact Hf1|].
    split; [reflexivity|]; rewrite Hfb1; simpl; destruct (completed t); reflexivity.
Qed.

Lemma toggle_twice_witness :
  let s := handleAddTask demo_nanoid (setInputText (js "wash dishes") init) in
  find_task "n" (tasks s) = Some (mkTask "n" (js "wash dishes") false) /\
  let s1 := handleToggleComplete "n" s in
  let s2 := handleToggleComplete "n" s1 in
  tasks s2 = tasks s /\
  feedbackType s1 = Some completed_fb /\
  feedbackType s2 = Some uncompleted_fb /\
  (exists t1, find_task "n" (tasks s1) = Some t1 /\
              completed t1 = true /\
              feedbackType s1 = Some (if completed t1 then completed_fb else uncompleted_fb)).
Proof.
  intros s.
  assert (H : find_task "n" (tasks s) = Some (mkTask "n" (js "wash dishes") false))
    by (vm_compute; reflexivity).
  split; [exact H|].
  exact (toggle_twice "n" s _ H).
Defined.

(** C3: in a reachable state, when the trimmed input is non-empty,
    [handleAddTask] appends exactly one task at the end, open, with the
    trimmed text and an id no listed task has, keeps the earlier tasks
    as they were, and shows the 'added' feedback. *)
Theorem add_appends_fresh_task nanoid s :
  (forall used, ~ In (nanoid used) used) ->
  reachable nanoid s ->
  trim (inputText s) <> [] ->
  exists i,
    tasks (handleAddTask nanoid s) = tasks s ++ [mkTask i (trim (inputText s)) false] /\
    ~ In i (map id (tasks s)) /\
    feedbackType (handleAddTask nanoid s) = Some added_fb.
Proof.
  intros Hfresh Hr Hne.
  destruct (reachable_ids_inv nanoid Hfresh s Hr) as [_ Hiss].
  exists (nanoid (issued s)).
  unfold handleAddTask.
  destruct (js_empty (trim (inputText s))) eqn:E;
    [apply js_empty_true in E; contradiction|].
  unfold gen_id; cbv beta iota zeta.
  rewrite showFeedback_tasks, feedbackType_showFeedback; split; [reflexivity|].
  split; [|reflexivity].
  intros Hin; apply in_map_iff in Hin as [u [Hu Hin]].
  apply (Hfresh (issued s)); rewrite <- Hu; apply Hiss; exact Hin.
Qed.

(** The input is framed by a no-break space and an ideographic space. *)
Lemma add_appends_fresh_task_witness :
  let s := handleAddTask demo_nanoid (setInputText (js "feed the cat") init) in
  let v := (160 :: js " wash dishes" ++ [12288])%N in
  exists i,
    tasks (handleAddTask demo_nanoid (setInputText v s))
      = tasks s ++ [mkTask i (js "wash dishes") false] /\
    ~ In i (map id (tasks s)) /\
    feedbackType (handleAddTask demo_nanoid (setInputText v s)) = Some added_fb.
Proof.
  intros s v.
  apply (add_appends_fresh_task demo_nanoid (setInputText v s)
           demo_nanoid_fresh).
  - apply reach_input, reach_add, reach_input, reach_init.
  - vm_compute; discriminate.
Defined.

(** C6: in a reachable state, [handleDelete] keeps exactly the tasks
    whose id differs, in their order and unchanged, which removes one
    task when one has the id and none otherwise; it shows 'deleted' in
    both cases. *)
Theorem delete_removes_matching nanoid s x :
  (forall used, ~ In (nanoid used) used) ->
  reachable nanoid s ->
  tasks (handleDelete x s) = filter (fun t => negb (String.eqb (id t) x)) (tasks s) /\
  length (tasks s)
    = length (tasks (handleDelete x s))
      + (if existsb (fun t => String.eqb (id t) x) (tasks s) then 1 else 0) /\
  feedbackType (handleDelete x s) = Some deleted_fb.
Proof.
  intros Hfresh Hr.
  destruct (reachable_ids_inv nanoid Hfresh s Hr) as [Hnd _].
  unfold handleDelete; rewrite tasks_showFeedback_with_tasks, feedbackType_showFeedback.
  split; [reflexivity | split; [apply filter_delete_length; exact Hnd | reflexivity]].
Qed.

Lemma delete_removes_matching_witness :
  let s := handleAddTask demo_nanoid (setInputText (js "feed the cat") init) in
  let s' := handleAddTask demo_nanoid (setInputText (js "wash dishes") s) in
  tasks (handleDelete "n" s') = filter (fun t => negb (String.eqb (id t) "n")) (tasks s') /\
  length (tasks s')
    = length (tasks (handleDelete "n" s'))
      + (if existsb (fun t => String.eqb (id t) "n") (tasks s') then 1 else 0) /\
  feedbackType (handleDelete "n" s') = Some deleted_fb.
Proof.
  intros s s'.
  apply (delete_removes_matching demo_nanoid s' "n" demo_nanoid_fresh).
  apply reach_add, reach_input, reach_add, reach_input, reach_init.
Defined.

(** C9: in a reachable state, toggling the id of a listed task rewrites
    that task alone, in place, flipping [completed] and keeping its id
    and text; the tasks before and after it are untouched. *)
Theorem toggle_frame nanoid s x t :
  (forall used, ~ In (nanoid used) used) ->
  reachable nanoid s ->
  In t (tasks s) -> id t = x ->
  exists pre post,
    tasks s = pre ++ t :: post /\
    tasks (handleToggleComplete x s)
      = pre ++ mkTask (id t) (text t) (negb (completed t)) :: post.
Proof.
  intros Hfresh Hr Hin Hid.
  destruct (reachable_ids_inv nanoid Hfresh s Hr) as [Hnd _].
  destruct (in_split t (tasks s) Hin) as [pre [post Heq]].
  exists pre, post; split; [exact Heq|].
  rewrite handleToggleComplete_eq, tasks_showFeedback_with_tasks, Heq.
  apply toggle_map_split; [rewrite <- Heq; exact Hnd | exact Hid].
Qed.

Lemma toggle_frame_witness :
  let s := handleAddTask demo_nanoid (setInputText (js "feed the cat") init) in
  let s' := handleAddTask demo_nanoid (setInputText (js "wash dishes") s) in
  exists pre post,
    tasks s' = pre ++ mkTask "nn" (js "wash dishes") false :: post /\
    tasks (handleToggleComplete "nn" s')
      = pre ++ mkTask "nn" (js "wash dishes") true :: post.
Proof.
  intros s s'.
  apply (toggle_frame demo_nanoid s' "nn" (mkTask "nn" (js "wash dishes") false)
           demo_nanoid_fresh).
  - apply reach_add, reach_input, reach_add, reach_input, reach_init.
  - vm_compute; right; left; reflexivity.
  - reflexivity.
Defined.

(** ** Lemmas on the feedback controller *)

Lemma showFeedback_fields k s :
  clock (showFeedback k s) = clock s /\
  next_handle (showFeedback k s) = S (next_handle s) /\
  feedbackTimeoutRef (showFeedback k s) = Some (next_handle s) /\
  fired (showFeedback k s) = fired s /\
  feedbackImageError (showFeedback k s) = false.
Proof. unfold showFeedback; destruct (feedbackTimeoutRef s); repeat split. Qed.

Lemma advance_timer_inv n s : timer_inv s -> timer_inv (advance n s).
Proof.
  revert s; induction n as [|n IH]; intros s Hi; simpl; [exact Hi|].
  apply IH, tick_timer_inv; exact Hi.
Qed.

Lemma timer_inv_length s : timer_inv s -> length (pending s) <= 1.
Proof.
  unfold timer_inv; destruct (pending s) as [|t [|t' r]]; simpl; intros Hi;
    [lia | lia | contradiction].
Qed.

(** After [showFeedback], [n] milliseconds on: the same state with the
    clock moved, and once [FEEDBACK_DURATION_MS] have passed, with the
    timeout run. *)
Lemma advance_showFeedback k s n :
  timer_inv s ->
  advance n (showFeedback k s)
  = if Nat.ltb n FEEDBACK_DURATION_MS
    then set_clock (clock s + n) (showFeedback k s)
    else set_clock (clock s + n) (fire (next_handle s) (showFeedback k s)).
Proof.
  intros Hi.
  destruct (showFeedback_fields k s) as [Hc _].
  rewrite (advance_one n _ _ (showFeedback_pending k s Hi)) by (cbn [due]; rewrite Hc;
    unfold FEEDBACK_DURATION_MS; lia).
  cbn [due handle]; rewrite Hc.
  destruct (Nat.ltb n FEEDBACK_DURATION_MS) eqn:E.
  - apply Nat.ltb_lt in E; replace (Nat.ltb (clock s + n) (clock s + FEEDBACK_DURATION_MS))
      with true by (symmetry; apply Nat.ltb_lt; lia); reflexivity.
  - apply Nat.ltb_ge in E; replace (Nat.ltb (clock s + n) (clock s + FEEDBACK_DURATION_MS))
      with false by (symmetry; apply Nat.ltb_ge; lia); reflexivity.
Qed.

Lemma set_clock_fields c s :
  feedbackType (set_clock c s) = feedbackType s /\ fired (set_clock c s) = fired s /\
  pending (set_clock c s) = pending s /\ next_handle (set_clock c s) = next_handle s /\
  feedbackTimeoutRef (set_clock c s) = feedbackTimeoutRef s /\
  feedbackImageError (set_clock c s) = feedbackImageError s /\ clock (set_clock c s) = c.
Proof. repeat split. Qed.

Lemma timer_inv_set_clock_showFeedback k s c :
  timer_inv s -> c < clock s + FEEDBACK_DURATION_MS ->
  timer_inv (set_clock c (showFeedback k s)).
Proof.
  intros Hi Hc; unfold timer_inv; cbn [pending set_clock].
  rewrite (showFeedback_pending k s Hi).
  destruct (showFeedback_fields k s) as [_ [_ [Hr _]]]; split; [exact Hr | simpl; exact Hc].
Qed.

Lemma fire_fields h s :
  feedbackType (fire h s) = None /\ feedbackImageError (fire h s) = false /\
  fired (fire h s) = fired s ++ [h].
Proof. repeat split. Qed.

(** One run of the controller: [showFeedback(a)], [j] milliseconds
    within its window, then [showFeedback(b)], then [n] milliseconds. *)
Lemma retrigger_run s a b j n :
  timer_inv s -> j < FEEDBACK_DURATION_MS ->
  let sA := showFeedback a s in
  let sB := showFeedback b (advance j sA) in
  advance j sA = set_clock (clock s + j) sA /\
  pending sB = [mkTimer (S (next_handle s)) (clock s + j + FEEDBACK_DURATION_MS)] /\
  feedbackTimeoutRef sB = Some (S (next_handle s)) /\
  feedbackType (advance n sB)
    = (if Nat.ltb n FEEDBACK_DURATION_MS then Some b else None) /\
  fired (advance n sB)
    = fired s ++ (if Nat.ltb n FEEDBACK_DURATION_MS then [] else [S (next_handle s)]) /\
  timer_inv (advance n sB).
Proof.
  intros Hi Hj; cbv zeta.
  assert (HA : advance j (showFeedback a s) = set_clock (clock s + j) (showFeedback a s)).
  { rewrite (advance_showFeedback a s j Hi).
    replace (Nat.ltb j FEEDBACK_DURATION_MS) with true
      by (symmetry; apply Nat.ltb_lt; exact Hj); reflexivity. }
  destruct (showFeedback_fields a s) as [HcA [HnA [HrA [HfA HeA]]]].
  remember (set_clock (clock s + j) (showFeedback a s)) as s' eqn:Hs'.
  assert (Hi' : timer_inv s')
    by (subst s'; apply timer_inv_set_clock_showFeedback; [exact Hi | lia]).
  assert (Hn' : next_handle s' = S (next_handle s)) by (subst s'; exact HnA).
  assert (Hc' : clock s' = clock s + j) by (subst s'; reflexivity).
  assert (Hf' : fired s' = fired s) by (subst s'; exact HfA).
  rewrite HA.
  destruct (showFeedback_fields b s') as [HcB [HnB [HrB [HfB HeB]]]].
  split; [reflexivity|].
  split; [rewrite (showFeedback_pending b _ Hi'), Hn', Hc'; reflexivity|].
  split; [rewrite HrB, Hn'; reflexivity|].
  rewrite (advance_showFeedback b _ n Hi').
  split; [|split].
  - destruct (Nat.ltb n FEEDBACK_DURATION_MS);
      [apply feedbackType_showFeedback | reflexivity].
  - destruct (Nat.ltb n FEEDBACK_DURATION_MS); cbn [fired set_clock fire];
      rewrite HfB, Hf', ?app_nil_r; [reflexivity|].
    rewrite Hn'; reflexivity.
  - rewrite <- (advance_showFeedback b _ n Hi').
    apply advance_timer_inv, showFeedback_timer_inv; exact Hi'.
Qed.

(** ** Claims on the feedback controller *)

(** C1: when [showFeedback(b)] comes [j] milliseconds after
    [showFeedback(a)], inside a's window, a was showing until then and
    its timeout had not run; b's call clears a's timeout, so the only
    queued timeout is b's, under a new handle; from then on the screen
    shows b until b's window is over and nothing afterwards, and the
    only timeout that ever runs is b's, once.  In every reachable state
    at most one timeout is queued. *)
Theorem retrigger_supersedes nanoid s a b j :
  reachable nanoid s -> j < FEEDBACK_DURATION_MS ->
  let sA := showFeedback a s in
  let sB := showFeedback b (advance j sA) in
  feedbackTimeoutRef sA = Some (next_handle s) /\
  feedbackType (advance j sA) = Some a /\
  fired (advance j sA) = fired s /\
  feedbackType sB = Some b /\
  S (next_handle s) <> next_handle s /\
  pending sB = [mkTimer (S (next_handle s)) (clock s + j + FEEDBACK_DURATION_MS)] /\
  (forall n, feedbackType (advance n sB)
             = if Nat.ltb n FEEDBACK_DURATION_MS then Some b else None) /\
  (forall n, fired (advance n sB)
             = fired s ++ (if Nat.ltb n FEEDBACK_DURATION_MS then [] else [S (next_handle s)])) /\
  (forall n, length (pending (advance n sB)) <= 1) /\
  (forall s', reachable nanoid s' -> length (pending s') <= 1).
Proof.
  intros Hr Hj; cbv zeta.
  pose proof (reachable_timer_inv nanoid s Hr) as Hi.
  destruct (showFeedback_fields a s) as [_ [_ [HrA [HfA _]]]].
  destruct (retrigger_run s a b j 0 Hi Hj) as [HA [HpB _]].
  rewrite HA; cbn [feedbackType fired set_clock].
  split; [exact HrA|]; split; [apply feedbackType_showFeedback|].
  split; [exact HfA|]; split; [apply feedbackType_showFeedback|].
  split; [lia|]; split; [rewrite <- HA; exact HpB|].
  split; [|split; [|split]].
  - intros n; destruct (retrigger_run s a b j n Hi Hj) as [HA' [_ [_ [Ht _]]]].
    rewrite <- HA; exact Ht.
  - intros n; destruct (retrigger_run s a b j n Hi Hj) as [HA' [_ [_ [_ [Hf _]]]]].
    rewrite <- HA; exact Hf.
  - intros n; destruct (retrigger_run s a b j n Hi Hj) as [HA' [_ [_ [_ [_ Hti]]]]].
    rewrite <- HA; apply timer_inv_length; exact Hti.
  - intros s' Hr'; apply timer_inv_length, (reachable_timer_inv nanoid s' Hr').
Qed.

Lemma retrigger_supersedes_witness :
  let sA := showFeedback added_fb init in
  let sB := showFeedback completed_fb (advance 1000 sA) in
  feedbackTimeoutRef sA = Some 1 /\
  feedbackType (advance 1000 sA) = Some added_fb /\
  fired (advance 1000 sA) = [] /\
  feedbackType sB = Some completed_fb /\
  2 <> 1 /\
  pending sB = [mkTimer 2 4500] /\
  (forall n, feedbackType (advance n sB)
             = if Nat.ltb n FEEDBACK_DURATION_MS then Some completed_fb else None) /\
  (forall n, fired (advance n sB)
             = [] ++ (if Nat.ltb n FEEDBACK_DURATION_MS then [] else [2])) /\
  (forall n, length (pending (advance n sB)) <= 1) /\
  (forall s', reachable demo_nanoid s' -> length (pending s') <= 1).
Proof.
  exact (retrigger_supersedes demo_nanoid init added_fb completed_fb 1000
           (reach_init demo_nanoid) ltac:(unfold FEEDBACK_DURATION_MS; lia)).
Defined.

(** C7: [showFeedback(k)] queues one timeout, due
    [FEEDBACK_DURATION_MS] = 3500 ms later; if nothing else is shown,
    [k] stays until then and the screen shows nothing from then on, the
    timeout having run exactly once however long one waits; if another
    feedback is shown within the window, this timeout never runs (only
    the new one does). *)
Theorem feedback_expires_once nanoid s k :
  reachable nanoid s ->
  let sA := showFeedback k s in
  FEEDBACK_DURATION_MS = 3500 /\
  pending sA = [mkTimer (next_handle s) (clock s + FEEDBACK_DURATION_MS)] /\
  (forall n, feedbackType (advance n sA)
             = if Nat.ltb n FEEDBACK_DURATION_MS then Some k else None) /\
  (forall n, fired (advance n sA)
             = fired s ++ (if Nat.ltb n FEEDBACK_DURATION_MS then [] else [next_handle s])) /\
  (forall j b n, j < FEEDBACK_DURATION_MS ->
     exists hB, hB <> next_handle s /\
       fired (advance n (showFeedback b (advance j sA)))
       = fired s ++ (if Nat.ltb n FEEDBACK_DURATION_MS then [] else [hB])).
Proof.
  intros Hr; cbv zeta.
  pose proof (reachable_timer_inv nanoid s Hr) as Hi.
  destruct (showFeedback_fields k s) as [_ [_ [_ [HfA _]]]].
  split; [reflexivity|]; split; [apply showFeedback_pending; exact Hi|].
  split; [|split].
  - intros n; rewrite (advance_showFeedback k s n Hi).
    destruct (Nat.ltb n FEEDBACK_DURATION_MS); [apply feedbackType_showFeedback|reflexivity].
  - intros n; rewrite (advance_showFeedback k s n Hi).
    destruct (Nat.ltb n FEEDBACK_DURATION_MS); cbn [fired set_clock fire];
      rewrite HfA, ?app_nil_r; reflexivity.
  - intros j b n Hj; exists (S (next_handle s)); split; [lia|].
    destruct (retrigger_run s k b j n Hi Hj) as [_ [_ [_ [_ [Hf _]]]]]; exact Hf.
Qed.

Lemma feedback_expires_once_witness :
  let s := handleAddTask demo_nanoid (setInputText (js "wash dishes") init) in
  let sA := showFeedback deleted_fb s in
  FEEDBACK_DURATION_MS = 3500 /\
  pending sA = [mkTimer (next_handle s) (clock s + FEEDBACK_DURATION_MS)] /\
  (forall n, feedbackType (advance n sA)
             = if Nat.ltb n FEEDBACK_DURATION_MS then Some deleted_fb else None) /\
  (forall n, fired (advance n sA)
             = fired s ++ (if Nat.ltb n FEEDBACK_DURATION_MS then [] else [next_handle s])) /\
  (forall j b n, j < FEEDBACK_DURATION_MS ->
     exists hB, hB <> next_handle s /\
       fired (advance n (showFeedback b (advance j sA)))
       = fired s ++ (if Nat.ltb n FEEDBACK_DURATION_MS then [] else [hB])).
Proof.
  exact (feedback_expires_once demo_nanoid _ deleted_fb
           (reach_add demo_nanoid _ (reach_input demo_nanoid (js "wash dishes") _
              (reach_init demo_nanoid)))).
Defined.

(** C8: [showFeedback] always leaves the image error flag false, and
    whether the flag was set does not change what it does; a failed GIF
    load (modelled from the spec) only raises the flag, the feedback
    staying on screen; the next [showFeedback] lowers it again, and so
    does the timeout when it runs at the end of the window. *)
Theorem image_error_flag_reset nanoid s k b j :
  reachable nanoid s -> j < FEEDBACK_DURATION_MS ->
  let s1 := onFeedbackImageError (advance j (showFeedback k s)) in
  feedbackImageError (showFeedback k s) = false /\
  showFeedback k (onFeedbackImageError s) = showFeedback k s /\
  feedbackType s1 = Some k /\ feedbackImageError s1 = true /\
  feedbackImageError (showFeedback b s1) = false /\
  feedbackImageError (advance (FEEDBACK_DURATION_MS - j) s1) = false /\
  feedbackType (advance (FEEDBACK_DURATION_MS - j) s1) = None.
Proof.
  intros Hr Hj; cbv zeta.
  pose proof (reachable_timer_inv nanoid s Hr) as Hi.
  destruct (showFeedback_fields k s) as [Hc [_ [_ [_ He]]]].
  rewrite (advance_showFeedback k s j Hi).
  replace (Nat.ltb j FEEDBACK_DURATION_MS) with true
    by (symmetry; apply Nat.ltb_lt; exact Hj).
  split; [exact He|].
  split; [unfold showFeedback, onFeedbackImageError; cbn [feedbackTimeoutRef];
          destruct (feedbackTimeoutRef s); reflexivity|].
  split; [apply feedbackType_showFeedback|]; split; [reflexivity|].
  split; [apply showFeedback_fields|].
  rewrite (advance_one _ _ (mkTimer (next_handle s) (clock s + FEEDBACK_DURATION_MS)))
    by (cbn [pending onFeedbackImageError set_clock due clock];
        first [apply showFeedback_pending; exact Hi | lia]).
  cbn [clock onFeedbackImageError set_clock due].
  replace (Nat.ltb (clock s + j + (FEEDBACK_DURATION_MS - j)) (clock s + FEEDBACK_DURATION_MS))
    with false by (symmetry; apply Nat.ltb_ge; lia).
  split; reflexivity.
Qed.

Lemma image_error_flag_reset_witness :
  let s1 := onFeedbackImageError (advance 200 (showFeedback added_fb init)) in
  feedbackImageError (showFeedback added_fb init) = false /\
  showFeedback added_fb (onFeedbackImageError init) = showFeedback added_fb init /\
  feedbackType s1 = Some added_fb /\ feedbackImageError s1 = true /\
  feedbackImageError (showFeedback deleted_fb s1) = false /\
  feedbackImageError (advance (FEEDBACK_DURATION_MS - 200) s1) = false /\
  feedbackType (advance (FEEDBACK_DURATION_MS - 200) s1) = None.
Proof.
  exact (image_error_flag_reset demo_nanoid init added_fb deleted_fb 200
           (reach_init demo_nanoid) ltac:(unfold FEEDBACK_DURATION_MS; lia)).
Defined.

(** ** Further properties of the task screen *)

Lemma drop_spaces_snoc l c :
  is_js_space c = false -> drop_spaces (l ++ [c]) = drop_spaces l ++ [c].
Proof.
  intros Hc; induction l as [|a r IH]; simpl; [rewrite Hc; reflexivity|].
  destruct (is_js_space a); [exact IH | reflexivity].
Qed.

Lemma drop_spaces_idem l : drop_spaces (drop_spaces l) = drop_spaces l.
Proof.
  induction l as [|a r IH]; simpl; [reflexivity|].
  destruct (is_js_space a) eqn:E; [exact IH | simpl; rewrite E; reflexivity].
Qed.

Lemma drop_spaces_head l :
  drop_spaces l = [] \/ exists c r, drop_spaces l = c :: r /\ is_js_space c = false.
Proof.
  induction l as [|a r IH]; simpl; [left; reflexivity|].
  destruct (is_js_space a) eqn:E; [exact IH | right; exists a, r; split; auto].
Qed.

(** Cutting the trailing spaces of a list that starts with a non-space
    keeps that first character, so no leading space appears. *)
Lemma drop_spaces_trailing_cut m :
  (m = [] \/ exists c r, m = c :: r /\ is_js_space c = false) ->
  drop_spaces (rev (drop_spaces (rev m))) = rev (drop_spaces (rev m)).
Proof.
  intros [->|[c [r [-> Hc]]]]; [reflexivity|].
  simpl; rewrite (drop_spaces_snoc _ _ Hc), rev_app_distr; simpl.
  rewrite Hc; reflexivity.
Qed.

Lemma trim_idem s : trim (trim s) = trim s.
Proof.
  unfold trim; f_equal.
  set (m := drop_spaces s).
  rewrite (drop_spaces_trailing_cut m (drop_spaces_head _)).
  rewrite rev_involutive, drop_spaces_idem; reflexivity.
Qed.

(** [trim] on non-ASCII whitespace: ['\u00a0'.trim() === ''] and
    [' \u00a0B2'.trim() === 'B2'], so an input of a lone no-break space
    adds nothing and [' \u00a0B2'] adds the text ['B2']. *)
Example trim_nbsp :
  trim [160]%N = [] /\ trim (js " " ++ [160] ++ js "B2")%N = js "B2" /\
  handleAddTask demo_nanoid (setInputText [160]%N init) = setInputText [160]%N init /\
  map text (tasks (handleAddTask demo_nanoid (setInputText (js " " ++ [160] ++ js "B2")%N init)))
  = [js "B2"].
Proof. vm_compute; repeat split. Qed.

Lemma toggle_map_comm x y l : toggle_map x (toggle_map y l) = toggle_map y (toggle_map x l).
Proof.
  induction l as [|t r IH]; simpl; [reflexivity|]; rewrite IH.
  destruct (String.eqb (id t) y) eqn:Ey, (String.eqb (id t) x) eqn:Ex; simpl;
    rewrite ?Ey, ?Ex; reflexivity.
Qed.

Lemma filter_toggle_map x l :
  filter (fun t => negb (String.eqb (id t) x)) (toggle_map x l)
  = filter (fun t => negb (String.eqb (id t) x)) l.
Proof.
  induction l as [|t r IH]; simpl; [reflexivity|].
  destruct (String.eqb (id t) x) eqn:E; simpl; rewrite ?E; simpl; rewrite IH; reflexivity.
Qed.

Lemma filter_absent x l :
  (forall u, In u l -> id u <> x) -> filter (fun t => negb (String.eqb (id t) x)) l = l.
Proof.
  induction l as [|t r IH]; intros H; simpl; [reflexivity|].
  destruct (String.eqb (id t) x) eqn:E.
  - apply String.eqb_eq in E; exfalso; exact (H t (or_introl eq_refl) E).
  - simpl; rewrite IH; [reflexivity|]; intros u Hu; apply H; right; exact Hu.
Qed.

Lemma add_appends_fresh_task_core nanoid s :
  (forall used, ~ In (nanoid used) used) ->
  reachable nanoid s ->
  trim (inputText s) <> [] ->
  exists i,
    tasks (handleAddTask nanoid s) = tasks s ++ [mkTask i (trim (inputText s)) false] /\
    ~ In i (map id (tasks s)).
Proof.
  intros Hfresh Hr Hne.
  destruct (reachable_ids_inv nanoid Hfresh s Hr) as [_ Hiss].
  exists (nanoid (issued s)).
  unfold handleAddTask.
  destruct (js_empty (trim (inputText s))) eqn:E;
    [apply js_empty_true in E; contradiction|].
  unfold gen_id; cbv beta iota zeta.
  rewrite showFeedback_tasks; split; [reflexivity|].
  intros Hin; apply in_map_iff in Hin as [u [Hu Hin]].
  apply (Hfresh (issued s)); rewrite <- Hu; apply Hiss; exact Hin.
Qed.

(** X1: in a reachable state, deleting the task [handleAddTask] has
    just appended gives back the task list from before the add. *)
Theorem add_then_delete_restores nanoid s :
  (forall used, ~ In (nanoid used) used) ->
  reachable nanoid s ->
  trim (inputText s) <> [] ->
  exists t,
    tasks (handleAddTask nanoid s) = tasks s ++ [t] /\
    tasks (handleDelete (id t) (handleAddTask nanoid s)) = tasks s.
Proof.
  intros Hfresh Hr Hne.
  destruct (add_appends_fresh_task_core nanoid s Hfresh Hr Hne) as [i [Ht Hi]].
  exists (mkTask i (trim (inputText s)) false); split; [exact Ht|].
  unfold handleDelete; rewrite tasks_showFeedback_with_tasks, Ht, filter_app; simpl.
  rewrite String.eqb_refl; simpl; rewrite app_nil_r.
  apply filter_absent; intros u Hu Hux; apply Hi; rewrite <- Hux; apply in_map; exact Hu.
Qed.

Lemma add_then_delete_restores_witness :
  let s := handleAddTask demo_nanoid (setInputText (js "feed the cat") init) in
  let v := (8287 :: js "wash dishes")%N in
  exists t,
    tasks (handleAddTask demo_nanoid (setInputText v s)) = tasks s ++ [t] /\
    tasks (handleDelete (id t) (handleAddTask demo_nanoid (setInputText v s)))
      = tasks s.
Proof.
  intros s v.
  apply (add_then_delete_restores demo_nanoid (setInputText v s)
           demo_nanoid_fresh).
  - apply reach_input, reach_add, reach_input, reach_init.
  - vm_compute; discriminate.
Defined.

(** X2: deleting the same id a second time removes nothing more. *)
Theorem delete_idempotent x s :
  tasks (handleDelete x (handleDelete x s)) = tasks (handleDelete x s).
Proof.
  unfold handleDelete; rewrite !tasks_showFeedback_with_tasks.
  apply filter_absent; intros u Hu Hux; apply filter_In in Hu as [_ Hu].
  rewrite Hux, String.eqb_refl in Hu; discriminate Hu.
Qed.

(** X3: toggles of two ids, in either order, give the same task list. *)
Theorem toggle_commute x y s :
  tasks (handleToggleComplete x (handleToggleComplete y s))
  = tasks (handleToggleComplete y (handleToggleComplete x s)).
Proof.
  rewrite !handleToggleComplete_eq, !tasks_showFeedback_with_tasks.
  apply toggle_map_comm.
Qed.

(** X4: deleting a task right after toggling it leaves the same list as
    deleting it directly. *)
Theorem delete_after_toggle x s :
  tasks (handleDelete x (handleToggleComplete x s)) = tasks (handleDelete x s).
Proof.
  unfold handleDelete; rewrite !tasks_showFeedback_with_tasks.
  rewrite handleToggleComplete_eq, tasks_showFeedback_with_tasks.
  apply filter_toggle_map.
Qed.

(** The GIF is on screen exactly when its dismissal is queued, and that
    dismissal is at most [FEEDBACK_DURATION_MS] away. *)
Definition overlay_inv (s : St) : Prop :=
  (feedbackType s = None <-> pending s = []) /\
  (forall t, In t (pending s) -> due t <= clock s + FEEDBACK_DURATION_MS).

Lemma showFeedback_overlay_inv k s :
  (forall t, In t (pending s) -> due t <= clock s + FEEDBACK_DURATION_MS) ->
  overlay_inv (showFeedback k s).
Proof.
  intros Hd; unfold overlay_inv, showFeedback.
  destruct (feedbackTimeoutRef s) as [h|]; cbn [feedbackType pending clock clearTimeout];
    (split; [split; intros H; [discriminate H | apply app_eq_nil in H as [_ H]; discriminate H]|]);
    intros t Ht; apply in_app_or in Ht as [Ht|[<-|[]]]; simpl; try lia;
    [apply filter_In in Ht as [Ht _]|]; apply Hd; exact Ht.
Qed.

Lemma tick_overlay_inv s : timer_inv s -> overlay_inv s -> overlay_inv (tick s).
Proof.
  unfold timer_inv; destruct (pending s) as [|t [|t' r]] eqn:Hp; intros Hi [Hiff Hd].
  - rewrite (tick_empty s Hp); unfold overlay_inv; simpl; rewrite Hp.
    split; [split; intros _; [reflexivity | apply Hiff; exact Hp] | intros t []].
  - rewrite (tick_one s t Hp).
    destruct (Nat.leb (due t) (S (clock s))).
    + unfold overlay_inv; destruct s; simpl in *; subst; simpl; rewrite Nat.eqb_refl.
      split; [split; reflexivity | intros u []].
    + unfold overlay_inv; simpl; split; [exact Hiff|].
      intros u Hu; pose proof (Hd u Hu); lia.
  - contradiction.
Qed.

(** X5: in every reachable state the feedback GIF is shown exactly when
    a dismissal timeout is queued, and that timeout is due at most
    [FEEDBACK_DURATION_MS] from now. *)
Theorem overlay_iff_timer nanoid s :
  reachable nanoid s ->
  (feedbackType s = None <-> pending s = []) /\
  (forall t, In t (pending s) -> clock s < due t <= clock s + FEEDBACK_DURATION_MS).
Proof.
  intros Hr.
  assert (H : overlay_inv s).
  { induction Hr as [ | v s Hr IH | s Hr IH | x s Hr IH | x s Hr IH | s Hr IH | s Hr IH].
    - split; [split; reflexivity | intros t []].
    - exact IH.
    - unfold handleAddTask; destruct (js_empty _); [exact IH|].
      unfold gen_id; cbv beta iota zeta.
      apply showFeedback_overlay_inv; apply (proj2 IH).
    - unfold handleToggleComplete.
      destruct (find_task _ _) as [t|]; [destruct (completed t)|];
        apply showFeedback_overlay_inv; apply (proj2 IH).
    - apply showFeedback_overlay_inv; apply (proj2 IH).
    - apply tick_overlay_inv; [apply (reachable_timer_inv nanoid s Hr) | exact IH].
    - exact IH. }
  destruct H as [Hiff Hd]; split; [exact Hiff|].
  intros t Ht; split; [|apply Hd; exact Ht].
  pose proof (reachable_timer_inv nanoid s Hr) as Hi; unfold timer_inv in Hi.
  destruct (pending s) as [|t1 [|t2 r]]; [destruct Ht | | contradiction].
  destruct Ht as [<-|[]]; apply Hi.
Qed.

Lemma overlay_iff_timer_witness :
  let s := advance 100 (handleAddTask demo_nanoid (setInputText (js "wash dishes") init)) in
  (feedbackType s = None <-> pending s = []) /\
  (forall t, In t (pending s) -> clock s < due t <= clock s + FEEDBACK_DURATION_MS).
Proof.
  apply (overlay_iff_timer demo_nanoid).
  assert (H : forall n s, reachable demo_nanoid s -> reachable demo_nanoid (advance n s))
    by (induction n as [|n IH]; intros s' Hs; simpl; [exact Hs | apply IH, reach_tick, Hs]).
  apply H, reach_add, reach_input, reach_init.
Defined.

(** X6: in every reachable state each task's text is non-empty and has
    no leading or trailing whitespace: [trim] leaves it as it is. *)
Theorem reachable_texts_trimmed nanoid s :
  reachable nanoid s ->
  forall t, In t (tasks s) -> text t <> [] /\ trim (text t) = text t.
Proof.
  induction 1 as [ | v s _ IH | s _ IH | x s _ IH | x s _ IH | s _ IH | s _ IH].
  - intros t [].
  - exact IH.
  - unfold handleAddTask; destruct (js_empty (trim (inputText s))) eqn:E; [exact IH|].
    unfold gen_id; cbv beta iota zeta; rewrite showFeedback_tasks; simpl.
    intros t Ht; apply in_app_or in Ht as [Ht|[<-|[]]]; [apply IH; exact Ht|]; simpl.
    split; [intros H; rewrite H in E; discriminate E | apply trim_idem].
  - rewrite handleToggleComplete_eq, tasks_showFeedback_with_tasks.
    intros t Ht; unfold toggle_map in Ht; apply in_map_iff in Ht as [u [Hu Hin]].
    subst t; destruct (String.eqb (id u) x); simpl; apply IH; exact Hin.
  - unfold handleDelete; rewrite tasks_showFeedback_with_tasks.
    intros t Ht; apply filter_In in Ht as [Ht _]; apply IH; exact Ht.
  - destruct (tick_tasks_issued s) as [-> _]; exact IH.
  - exact IH.
Qed.

Lemma reachable_texts_trimmed_witness :
  text (mkTask "n" (js "wash dishes") false) <> [] /\
  trim (text (mkTask "n" (js "wash dishes") false)) = text (mkTask "n" (js "wash dishes") false).
Proof.
  apply (reachable_texts_trimmed demo_nanoid
           (handleAddTask demo_nanoid
              (setInputText ([160; 32] ++ js "wash dishes" ++ [8232; 65279])%N init))).
  - apply reach_add, reach_input, reach_init.
  - vm_compute; left; reflexivity.
Defined.

(** X7: in every reachable state no two tasks share an id. *)
Theorem reachable_ids_unique nanoid s :
  (forall used, ~ In (nanoid used) used) ->
  reachable nanoid s ->
  NoDup (map id (tasks s)).
Proof. intros Hfresh Hr; exact (proj1 (reachable_ids_inv nanoid Hfresh s Hr)). Qed.

Lemma reachable_ids_unique_witness :
  NoDup (map id (tasks (handleAddTask demo_nanoid (setInputText (js "b")
    (handleAddTask demo_nanoid (setInputText (js "a") init)))))).
Proof.
  apply (reachable_ids_unique demo_nanoid _ demo_nanoid_fresh).
  apply reach_add, reach_input, reach_add, reach_input, reach_init.
Defined.

(** ** Editing a task (src/unnamed/part_001, "Adding a New Task Feature")

    The screen's task list together with the two states the edit
    feature adds: [useState<string | null>(null)] and [useState('')]. *)
Record EditSt := mkEditSt {
  e_tasks : list TaskType;
  editingId : option string;
  editText : jsstring
}.

(** [handleStartEdit(task)]: [setEditingId(task.id); setEditText(task.text);] *)
Definition handleStartEdit (task : TaskType) (es : EditSt) : EditSt :=
  mkEditSt (e_tasks es) (Some (id task)) (text task).

(** [t.id === editingId], with [editingId] a string or [null]. *)
Definition is_editing (eid : option string) (t : TaskType) : bool :=
  match eid with
  | Some e => String.eqb (id t) e
  | None => false
  end.

(** [handleSaveEdit]:
    [if (!editText.trim()) return;
     setTasks(prev => prev.map(t => t.id === editingId ? { ...t, text: editText.trim() } : t));
     setEditingId(null); setEditText('');] *)
Definition handleSaveEdit (es : EditSt) : EditSt :=
  if js_empty (trim (editText es)) then es
  else mkEditSt
         (map (fun t => if is_editing (editingId es) t
                        then mkTask (id t) (trim (editText es)) (completed t) else t)
              (e_tasks es))
         None [].

(** [handleCancelEdit]: [setEditingId(null); setEditText('');] *)
Definition handleCancelEdit (es : EditSt) : EditSt :=
  mkEditSt (e_tasks es) None [].

(** [onChangeText={setEditText}] *)
Definition setEditText (v : jsstring) (es : EditSt) : EditSt :=
  mkEditSt (e_tasks es) (editingId es) v.

Lemma map_edit_absent eid f l :
  (forall u, In u l -> is_editing eid u = false) ->
  map (fun t => if is_editing eid t then f t else t) l = l.
Proof.
  induction l as [|t r IH]; intros H; simpl; [reflexivity|].
  rewrite (H t (or_introl eq_refl)), IH; [reflexivity|].
  intros u Hu; apply H; right; exact Hu.
Qed.

(** X8: saving with an empty or whitespace-only edit text does nothing:
    the list, the task being edited and the edit text stay as they are. *)
Theorem save_edit_blank_noop es :
  trim (editText es) = [] -> handleSaveEdit es = es.
Proof. intros H; unfold handleSaveEdit; rewrite H; reflexivity. Qed.

Lemma save_edit_blank_noop_witness :
  handleSaveEdit (mkEditSt [mkTask "n" (js "wash dishes") false] (Some "n")
                           [32; 160; 8233; 8200; 65279]%N)
  = mkEditSt [mkTask "n" (js "wash dishes") false] (Some "n") [32; 160; 8233; 8200; 65279]%N.
Proof. apply save_edit_blank_noop; reflexivity. Defined.

(** X9: saving while no task is being edited ([editingId] is [null])
    changes no task, since no id is [===] to [null]; it still leaves
    edit mode and clears the edit text. *)
Theorem save_edit_without_target es :
  editingId es = None ->
  e_tasks (handleSaveEdit es) = e_tasks es /\
  editingId (handleSaveEdit es) = None.
Proof.
  intros Hn; unfold handleSaveEdit.
  destruct (js_empty (trim (editText es))); [split; [reflexivity | exact Hn]|].
  rewrite Hn; simpl; split; [|reflexivity].
  apply map_id.
Qed.

Lemma save_edit_without_target_witness :
  let es := mkEditSt [mkTask "n" (js "wash dishes") false] None (js "rinse cups") in
  e_tasks (handleSaveEdit es) = e_tasks es /\ editingId (handleSaveEdit es) = None.
Proof. apply save_edit_without_target; reflexivity. Defined.

Lemma save_edit_split es pre t post :
  NoDup (map id (pre ++ t :: post)) ->
  e_tasks es = pre ++ t :: post ->
  editingId es = Some (id t) ->
  trim (editText es) <> [] ->
  handleSaveEdit es
  = mkEditSt (pre ++ mkTask (id t) (trim (editText es)) (completed t) :: post) None [].
Proof.
  intros Hnd Hl He Hne; unfold handleSaveEdit.
  destruct (js_empty (trim (editText es))) eqn:E;
    [apply js_empty_true in E; contradiction|].
  rewrite Hl, He, map_app; cbn [map]; cbv beta.
  replace (is_editing (Some (id t)) t) with true by (simpl; rewrite String.eqb_refl; reflexivity).
  rewrite map_app in Hnd; simpl in Hnd; apply NoDup_remove_2 in Hnd.
  rewrite !map_edit_absent; [reflexivity| |];
    intros u Hu; simpl; apply String.eqb_neq; intros Hut; apply Hnd;
    rewrite <- Hut; apply in_or_app; [right|left]; apply in_map; exact Hu.
Qed.

(** X10: with distinct ids, saving an edit while a listed task is being
    edited rewrites that task alone, in place: its text becomes the
    trimmed edit text (so stays non-empty and trimmed), its id and
    [completed] are kept, the other tasks are untouched, and edit mode
    is left with an empty edit text. *)
Theorem save_edit_rewrites_target es t :
  NoDup (map id (e_tasks es)) ->
  In t (e_tasks es) ->
  editingId es = Some (id t) ->
  trim (editText es) <> [] ->
  exists pre post,
    e_tasks es = pre ++ t :: post /\
    handleSaveEdit es
    = mkEditSt (pre ++ mkTask (id t) (trim (editText es)) (completed t) :: post) None [] /\
    trim (trim (editText es)) = trim (editText es).
Proof.
  intros Hnd Hin He Hne.
  destruct (in_split t _ Hin) as [pre [post Hl]].
  exists pre, post; split; [exact Hl|]; split; [|apply trim_idem].
  apply save_edit_split; [rewrite <- Hl; exact Hnd | exact Hl | exact He | exact Hne].
Qed.

Lemma save_edit_rewrites_target_witness :
  let es := mkEditSt [mkTask "a" (js "feed the cat") true; mkTask "b" (js "wash dishes") false]
                     (Some "a") (5760 :: js "feed the dog" ++ [8239; 10])%N in
  exists pre post,
    e_tasks es = pre ++ mkTask "a" (js "feed the cat") true :: post /\
    handleSaveEdit es
    = mkEditSt (pre ++ mkTask "a" (trim (editText es)) true :: post) None [] /\
    trim (trim (editText es)) = trim (editText es).
Proof.
  apply (save_edit_rewrites_target _ (mkTask "a" (js "feed the cat") true)).
  - vm_compute; repeat constructor; simpl; intuition discriminate.
  - left; reflexivity.
  - reflexivity.
  - vm_compute; discriminate.
Defined.

(** X11: with distinct ids, starting to edit a listed task whose text is
    already trimmed and non-empty (as every task of a reachable screen
    state is) and saving without changing the text gives back the same
    task list. *)
Theorem start_then_save_roundtrip es t :
  NoDup (map id (e_tasks es)) ->
  In t (e_tasks es) ->
  text t <> [] -> trim (text t) = text t ->
  handleSaveEdit (handleStartEdit t es) = mkEditSt (e_tasks es) None [].
Proof.
  intros Hnd Hin Hne Htr.
  destruct (in_split t _ Hin) as [pre [post Hl]].
  rewrite (save_edit_split (handleStartEdit t es) pre t post);
    [| rewrite <- Hl; exact Hnd | exact Hl | reflexivity | simpl; rewrite Htr; exact Hne].
  simpl; rewrite Htr, Hl; destruct t; reflexivity.
Qed.

Lemma start_then_save_roundtrip_witness :
  let es := mkEditSt [mkTask "a" (js "feed the cat") true; mkTask "b" (js "wash dishes") false]
                     None [] in
  handleSaveEdit (handleStartEdit (mkTask "b" (js "wash dishes") false) es)
  = mkEditSt (e_tasks es) None [].
Proof.
  apply start_then_save_roundtrip.
  - vm_compute; repeat constructor; simpl; intuition discriminate.
  - right; left; reflexivity.
  - discriminate.
  - reflexivity.
Defined.

(** ** Theme colours (constants/theme.ts, hooks/use-theme-color.ts) *)

Inductive ColorScheme := light | dark.

(** [keyof typeof Colors.light & keyof typeof Colors.dark] *)
Inductive ColorName := c_text | c_background | c_card | c_border | c_tint | c_delete.

(** [export const Colors = { light: {...}, dark: {...} }] *)
Definition Colors (theme : ColorScheme) (name : ColorName) : string :=
  match theme, name with
  | light, c_text => "#1a2634"
  | light, c_background => "#e8f2fa"
  | light, c_card => "#f5f9fd"
  | light, c_border => "#c5d9ed"
  | light, c_tint => "#5b9bd5"
  | light, c_delete => "#b85c58"
  | dark, c_text => "#e8eef4"
  | dark, c_background => "#1a2332"
  | dark, c_card => "#243447"
  | dark, c_border => "#3a4d66"
  | dark, c_tint => "#7eb8f0"
  | dark, c_delete => "#e09898"
  end.

(** [props: { light?: string; dark?: string }] *)
Record ThemeProps := mkThemeProps {
  p_light : option string;
  p_dark : option string
}.

Definition prop_for (props : ThemeProps) (theme : ColorScheme) : option string :=
  match theme with
  | light => p_light props
  | dark => p_dark props
  end.

(** [useThemeColor(props, colorName)]:
    [const theme = useColorScheme() ?? 'light'; const colorFromProps = props[theme];
     if (colorFromProps) return colorFromProps; else return Colors[theme][colorName];]
    [useColorScheme()] is [None] when it yields [null] or [undefined]; a
    string is truthy exactly when it is not empty. *)
Definition useThemeColor (scheme : option ColorScheme) (props : ThemeProps)
    (colorName : ColorName) : string :=
  let theme := match scheme with Some t => t | None => light end in
  match prop_for props theme with
  | Some c => if String.eqb c "" then Colors theme colorName else c
  | None => Colors theme colorName
  end.

(** ** The page script (src/script.js) *)

(** The two texts the toggle button shows: ['🌙'] and ['☀️']. *)
Inductive Icon := moon | sun.

(** The page as [script.js] sees it: the [data-theme] attribute of the
    root element ([getAttribute] gives [null] when it is absent), the
    ['theme'] entry of [localStorage], whether a [.theme-toggle] button
    exists and its text. *)
Record Page := mkPage {
  dataTheme : option string;
  storedTheme : option string;
  hasToggle : bool;
  toggleText : option Icon
}.

Definition icon_for (theme : string) : Icon :=
  if String.eqb theme "light" then moon else sun.

(** [toggleTheme()] *)
Definition toggleTheme (p : Page) : Page :=
  let newTheme := match dataTheme p with
                  | Some c => if String.eqb c "light" then "dark" else "light"
                  | None => "light"
                  end in
  mkPage (Some newTheme) (Some newTheme) (hasToggle p)
         (if hasToggle p then Some (icon_for newTheme) else toggleText p).

(** The top-level code run on page load:
    [const savedTheme = localStorage.getItem('theme') || 'dark'; ...] *)
Definition loadTheme (p : Page) : Page :=
  let savedTheme := match storedTheme p with
                    | Some v => if String.eqb v "" then "dark" else v
                    | None => "dark"
                    end in
  mkPage (Some savedTheme) (storedTheme p) (hasToggle p)
         (if hasToggle p then Some (icon_for savedTheme) else toggleText p).

(** The scroll listener, registered only when a [.scroll-to-top] button
    exists: [if (window.scrollY > 300) add('visible') else remove('visible')];
    [visible] is whether the button's class list has ['visible']. *)
Definition onScroll (scrollY : Z) (visible : bool) : bool :=
  if Z.ltb 300 scrollY then true else false.

Definition scrollEvents (hasButton : bool) (visible : bool) (ys : list Z) : bool :=
  if hasButton then fold_left (fun v y => onScroll y v) ys visible else visible.

(** X12: [useThemeColor] never yields an empty colour; a [null] colour
    scheme is read as light; only the override for the scheme in use
    counts, and an empty-string override is ignored in favour of the
    palette entry. *)
Theorem theme_color_resolution scheme props props' name :
  let theme := match scheme with Some t => t | None => light end in
  useThemeColor scheme props name <> "" /\
  useThemeColor None props name = useThemeColor (Some light) props name /\
  (prop_for props' theme = prop_for props theme ->
   useThemeColor scheme props' name = useThemeColor scheme props name) /\
  (prop_for props theme = Some "" -> useThemeColor scheme props name = Colors theme name).
Proof.
  intros theme; unfold useThemeColor; fold theme.
  split; [|split; [reflexivity | split]].
  - destruct (prop_for props theme) as [c|].
    + destruct (String.eqb c "") eqn:E; [|intros H; rewrite H in E; discriminate E].
      destruct theme, name; discriminate.
    + destruct theme, name; discriminate.
  - intros H; rewrite H; reflexivity.
  - intros ->; reflexivity.
Qed.

Lemma theme_color_resolution_witness :
  let props := mkThemeProps (Some "") (Some "#000000") in
  let props' := mkThemeProps (Some "") None in
  useThemeColor None props c_tint <> "" /\
  useThemeColor None props c_tint = useThemeColor (Some light) props c_tint /\
  (prop_for props' light = prop_for props light ->
   useThemeColor None props' c_tint = useThemeColor None props c_tint) /\
  (prop_for props light = Some "" -> useThemeColor None props c_tint = Colors light c_tint).
Proof. exact (theme_color_resolution None _ _ c_tint). Defined.

(** X13: toggling the theme twice brings the page back to its theme
    exactly when that theme was 'light' or 'dark'; from a missing or any
    other value the first toggle lands on 'light'. *)
Theorem toggle_theme_twice p :
  (dataTheme (toggleTheme (toggleTheme p)) = dataTheme p <->
   dataTheme p = Some "light" \/ dataTheme p = Some "dark") /\
  ((dataTheme p <> Some "light" /\ dataTheme p <> Some "dark") ->
   dataTheme (toggleTheme p) = Some "light").
Proof.
  destruct p as [[c|] st hb tt]; cbn [dataTheme toggleTheme].
  - destruct (String.eqb c "light") eqn:El; simpl.
    + apply String.eqb_eq in El; subst c.
      split; [split; [intros _; left; reflexivity | intros _; reflexivity]|].
      intros [H _]; exfalso; apply H; reflexivity.
    + apply String.eqb_neq in El.
      split; [split|].
      * intros H; right; symmetry; exact H.
      * intros [H|H]; [injection H as H; contradiction | symmetry; exact H].
      * intros _; reflexivity.
  - split; [split; [discriminate | intros [H|H]; discriminate H] | intros _; reflexivity].
Qed.

Fixpoint toggles (n : nat) (p : Page) : Page :=
  match n with
  | 0 => p
  | S k => toggles k (toggleTheme p)
  end.

(** X14: from page load on, however many times the theme is toggled,
    an existing toggle button shows the moon exactly when the theme is
    'light' (the sun otherwise), and once toggled the stored theme is
    the one on the page. *)
Theorem toggle_icon_in_sync p n :
  hasToggle p = true ->
  let q := toggles n (loadTheme p) in
  (exists th, dataTheme q = Some th /\ toggleText q = Some (icon_for th)) /\
  (n <> 0 -> storedTheme q = dataTheme q).
Proof.
  intros Hb; cbv zeta.
  assert (Hgen : forall m r, hasToggle r = true ->
            (exists th, dataTheme r = Some th /\ toggleText r = Some (icon_for th)) ->
            (exists th, dataTheme (toggles m r) = Some th /\
                        toggleText (toggles m r) = Some (icon_for th)) /\
            (m <> 0 -> storedTheme (toggles m r) = dataTheme (toggles m r))).
  { induction m as [|m IH]; intros r Hr Hs; simpl; [split; [exact Hs | intros H; contradiction]|].
    assert (Hr' : hasToggle (toggleTheme r) = true) by exact Hr.
    assert (Hs' : exists th, dataTheme (toggleTheme r) = Some th /\
                             toggleText (toggleTheme r) = Some (icon_for th))
      by (unfold toggleTheme; rewrite Hr; eexists; split; reflexivity).
    destruct (IH _ Hr' Hs') as [H1 H2]; split; [exact H1|].
    intros _; destruct m as [|m]; [reflexivity | apply H2; discriminate]. }
  apply Hgen; [exact Hb|].
  unfold loadTheme; rewrite Hb; eexists; split; reflexivity.
Qed.

Lemma toggle_icon_in_sync_witness :
  let q := toggles 3 (loadTheme (mkPage None (Some "") true None)) in
  (exists th, dataTheme q = Some th /\ toggleText q = Some (icon_for th)) /\
  (3 <> 0 -> storedTheme q = dataTheme q).
Proof. apply toggle_icon_in_sync; reflexivity. Defined.

(** X15: a toggled theme survives a reload: loading the page again with
    the storage [toggleTheme] left shows the same theme. Loading itself
    never writes the storage, and falls back to 'dark' when the stored
    theme is missing or empty. *)
Theorem theme_persists_reload p r :
  storedTheme r = storedTheme (toggleTheme p) ->
  dataTheme (loadTheme r) = dataTheme (toggleTheme p) /\
  storedTheme (loadTheme r) = storedTheme r /\
  (forall q, (storedTheme q = None \/ storedTheme q = Some "") ->
             dataTheme (loadTheme q) = Some "dark").
Proof.
  intros Hst; split; [|split; [reflexivity|]].
  - unfold loadTheme; cbn [dataTheme]; rewrite Hst.
    destruct p as [[c|] st hb tt]; cbn [toggleTheme storedTheme dataTheme];
      [destruct (String.eqb c "light")|]; reflexivity.
  - intros q [H|H]; unfold loadTheme; rewrite H; reflexivity.
Qed.

Lemma theme_persists_reload_witness :
  let p := mkPage (Some "dark") (Some "dark") true (Some sun) in
  let r := mkPage None (Some "light") true None in
  dataTheme (loadTheme r) = dataTheme (toggleTheme p) /\
  storedTheme (loadTheme r) = storedTheme r /\
  (forall q, (storedTheme q = None \/ storedTheme q = Some "") ->
             dataTheme (loadTheme q) = Some "dark").
Proof. apply theme_persists_reload; reflexivity. Defined.

(** X16: with a scroll-to-top button, after one or more scroll events
    the button is visible exactly when the last [scrollY] is above 300,
    whatever came before; without the button nothing changes. *)
Theorem scroll_button_last_event v ys y :
  scrollEvents true v (ys ++ [y]) = Z.ltb 300 y /\
  scrollEvents false v (ys ++ [y]) = v.
Proof.
  unfold scrollEvents; rewrite fold_left_app; simpl; split; [|reflexivity].
  unfold onScroll; destruct (Z.ltb 300 y); reflexivity.
Qed.
